(** * Gauss-Legendre quadrature of [cuadrature.py]

    A shallow embedding of the functions of [cuadrature.py] and of the
    search loop of its [main], with the properties its specification
    states about them.

    Numbers.  The program computes with float64 values.  They are
    idealised here as real numbers: rounding, overflow and signed zeros
    are outside the model.  The one place where the program can leave the
    finite values by itself is the division of line 193; that division is
    modelled with the non-finite results numpy gives for a zero divisor.

    Arrays.  A one-dimensional numpy array is a list; a value handed back
    by a callable is either such an array or a scalar, and the product of
    two values follows numpy's broadcasting rule. *)

From Stdlib Require Import Reals Lra Lia List Arith Sorted.
Import ListNotations.

Open Scope R_scope.

(** ** The numpy values the program uses *)

Module Np.

(** What a Python call gives back: a value or a raised exception. *)
Inductive excepcion : Type :=
| ValueError.

Inductive resultado (A : Type) : Type :=
| Ok (x : A)
| Error (e : excepcion).

Arguments Ok {A} x.
Arguments Error {A} e.

Definition bind {A B : Type} (r : resultado A) (k : A -> resultado B)
  : resultado B :=
  match r with
  | Ok x => k x
  | Error e => Error e
  end.

(** A scalar or a one-dimensional array. *)
Inductive ndarray : Type :=
| Escalar (x : R)
| Vector (v : list R).

(** Element-wise product of two arrays of one length. *)
Fixpoint mul_elem (u v : list R) : list R :=
  match u, v with
  | x :: u', y :: v' => x * y :: mul_elem u' v'
  | _, _ => []
  end.

(** [u * v] on one-dimensional arrays: equal lengths multiply element by
    element, an array of length one is stretched over the other, any
    other pair of shapes raises [ValueError]. *)
Definition mul_vec (u v : list R) : resultado (list R) :=
  if Nat.eqb (length u) (length v) then Ok (mul_elem u v)
  else match u, v with
       | [x], _ => Ok (map (Rmult x) v)
       | _, [y] => Ok (map (fun x => x * y) u)
       | _, _ => Error ValueError
       end.

Definition mul (a b : ndarray) : resultado ndarray :=
  match a, b with
  | Escalar x, Escalar y => Ok (Escalar (x * y))
  | Escalar x, Vector v => Ok (Vector (map (Rmult x) v))
  | Vector u, Escalar y => Ok (Vector (map (fun x => x * y) u))
  | Vector u, Vector v => bind (mul_vec u v) (fun w => Ok (Vector w))
  end.

(** [np.sum]: the elements added up, starting from zero. *)
Definition sum_list (v : list R) : R := fold_left Rplus v 0.

Definition sum (a : ndarray) : R :=
  match a with
  | Escalar x => x
  | Vector v => sum_list v
  end.

(** The result of a float64 division: finite, or one of the values numpy
    gives (with a warning, not an exception) when the divisor is zero. *)
Inductive float64 : Type :=
| Finito (r : R)
| MasInf
| MenosInf
| NaN.

Definition div (x y : R) : float64 :=
  if Req_dec_T y 0 then
    if Req_dec_T x 0 then NaN
    else if Rlt_dec 0 x then MasInf else MenosInf
  else Finito (x / y).

(** [e < t] for a float64 [e] and a finite [t]: false for [nan] and for
    [+inf]. *)
Definition ltb (e : float64) (t : R) : bool :=
  match e with
  | Finito r => if Rlt_dec r t then true else false
  | MasInf => false
  | MenosInf => true
  | NaN => false
  end.

End Np.

Import Np.

(** ** The functions of [cuadrature.py] *)

(** [gaussxwab]: both arrays are scaled by [0.5 * (limsup - liminf)], the
    nodes are then shifted by [0.5 * (limsup + liminf)].  The function
    holds no test on its bounds. *)
Definition gaussxwab (liminf limsup : R) (pto peso : list R)
  : list R * list R :=
  (map (fun x => 0.5 * (limsup - liminf) * x + 0.5 * (limsup + liminf)) pto,
   map (fun w => 0.5 * (limsup - liminf) * w) peso).

(** [func_arg_int] on one number, and on an array (numpy applies the
    powers, the sine and the products element by element). *)
Definition func_arg_int_1 (x : R) : R := x ^ 6 - x ^ 2 * sin (2 * x).

Definition func_arg_int (x : list R) : ndarray :=
  Vector (map func_arg_int_1 x).

(** [eva_int]: [np.sum(peso * func(pto))]. *)
Definition eva_int (pto peso : list R) (func : list R -> ndarray)
  : resultado R :=
  bind (mul (Vector peso) (func pto)) (fun p => Ok (sum p)).

(** [derivada_analitica], called on the numbers 3 and 1. *)
Definition derivada_analitica (x : R) : R :=
  x ^ 7 / 7 + x ^ 2 / 2 * cos (2 * x) - x / 2 * sin (2 * x)
  - 1 / 4 * cos (2 * x).

(** Line 193, [abs(approx - analytic) / analytic]: the divisor is the
    reference value itself, and no test on it precedes the division. *)
Definition error_relativo (approx analytic : R) : float64 :=
  div (Rabs (approx - analytic)) analytic.

(** *** The search loop of [main] *)

Section Busqueda.

(** [np.polynomial.legendre.leggauss] belongs to numpy, not to the
    program: it stays a parameter. *)
Variable leggauss : nat -> resultado (list R * list R).

Definition gaussxw (N : nat) : resultado (list R * list R) := leggauss N.

Definition analytic : R := derivada_analitica 3 - derivada_analitica 1.

Definition tol : R := 1e-10.

(** The variables of [main] that the loop reads and writes; [approx] is
    unbound until the first trial. *)
Record estado : Type := mkEstado {
  N : nat;
  N_valores : list nat;
  integral_valores : list R;
  errores : list float64;
  approx : option R
}.

Definition inicial : estado :=
  {| N := 1; N_valores := []; integral_valores := []; errores := [];
     approx := None |}.

(** Lines 187-191: the rule of order [n], scaled to [1, 3], applied to
    [func_arg_int]. *)
Definition ensayo (n : nat) : resultado R :=
  bind (gaussxw n) (fun xw =>
    let (pto_esc, peso_esc) := gaussxwab 1 3 (fst xw) (snd xw) in
    eva_int pto_esc peso_esc func_arg_int).

Inductive control : Type :=
| Sigue
| Sale.

(** One turn of [while True] (lines 186-208). *)
Definition iteracion (s : estado) : resultado (control * estado) :=
  bind (ensayo (N s)) (fun a =>
    let err := error_relativo a analytic in
    let s1 := {| N := N s;
                 N_valores := N_valores s ++ [N s];
                 integral_valores := integral_valores s ++ [a];
                 errores := errores s ++ [err];
                 approx := Some a |} in
    if ltb err tol then Ok (Sale, s1)
    else
      let s2 := {| N := S (N s1);
                   N_valores := N_valores s1;
                   integral_valores := integral_valores s1;
                   errores := errores s1;
                   approx := approx s1 |} in
      if (50 <? N s2)%nat then Ok (Sale, s2) else Ok (Sigue, s2)).

(** The loop, run for at most [fuel] turns; [None] when the turns are
    used up before a [break]. *)
Fixpoint bucle (fuel : nat) (s : estado) : option (resultado estado) :=
  match fuel with
  | O => None
  | S fuel' =>
      match iteracion s with
      | Error e => Some (Error e)
      | Ok (Sale, s') => Some (Ok s')
      | Ok (Sigue, s') => bucle fuel' s'
      end
  end.

(** The state [main] reaches after its loop: what the closing [print] and
    the two plots read. *)
Definition main : option (resultado estado) := bucle 50 inicial.

(** Whether the error of the trial of order [n] is below the tolerance:
    the test of line 203. *)
Definition pasa (n : nat) : Prop :=
  exists a, ensayo n = Ok a /\ ltb (error_relativo a analytic) tol = true.

Definition no_pasa (n : nat) : Prop :=
  exists a, ensayo n = Ok a /\ ltb (error_relativo a analytic) tol = false.

(** The approximation of the trial of order [n] (0 stands in where the
    trial raises; the statements below use it for completed trials
    only). *)
Definition valor (n : nat) : R :=
  match ensayo n with
  | Ok a => a
  | Error _ => 0
  end.

(** The three lists hold one entry for each of the orders 1, ..., k, in
    that sequence, and [approx] holds the last approximation. *)
Definition registros (k : nat) (s : estado) : Prop :=
  N_valores s = seq 1 k /\
  integral_valores s = map valor (seq 1 k) /\
  errores s = map (fun j => error_relativo (valor j) analytic) (seq 1 k) /\
  (forall j, k = S j -> approx s = Some (valor k)).

(** How the run ended after the trial of order [k]: the loop left by one
    of its two [break]s, with one record for each order up to [k], or the
    trial raised and the exception left [main]. *)
Definition desenlace (k : nat) (r : resultado estado) : Prop :=
  match r with
  | Ok s =>
      registros k s /\
      ((pasa k /\ N s = k) \/ (no_pasa k /\ k = 50%nat /\ N s = 51%nat))
  | Error e => ensayo k = Error e
  end.

End Busqueda.

(** *** The script [test.py] *)

Section Test_py.

Variable leggauss : nat -> resultado (list R * list R).

(** The three values [test.py] prints: the approximation with five
    points, the exact value and the error of line 12. *)
Definition test_py : resultado (R * R * float64) :=
  bind (gaussxw leggauss 5) (fun xw =>
    let (pto_esc, peso_esc) := gaussxwab 1 3 (fst xw) (snd xw) in
    bind (eva_int pto_esc peso_esc func_arg_int) (fun resultado_ =>
      let exacto := derivada_analitica 3 - derivada_analitica 1 in
      let error := div (Rabs (resultado_ - exacto)) exacto in
      Ok (resultado_, exacto, error))).

End Test_py.

(** ** Notions of the specification *)

(** [sumatoria n t] is [t 0 + ... + t (n-1)]. *)
Fixpoint sumatoria (n : nat) (t : nat -> R) : R :=
  match n with
  | O => 0
  | S k => sumatoria k t + t k
  end.

(** The weighted sum of the values of [f] at the nodes. *)
Definition suma_ponderada (pto peso : list R) (f : R -> R) : R :=
  sumatoria (length pto) (fun i => nth i peso 0 * f (nth i pto 0)).

(** An integrand on the reals, evaluated element by element on an
    array. *)
Definition vectorizar (f : R -> R) (x : list R) : ndarray :=
  Vector (map f x).

(** The relative-error policy of the specification: the error and the
    flag of the absolute-error fallback. *)
Definition politica_error (approx ref : R) : R * bool :=
  if Req_dec_T ref 0 then (Rabs (approx - ref), true)
  else (Rabs (approx - ref) / Rabs ref, false).

(** The failures the specification names. *)
Inductive fallo : Type :=
| InvalidInterval
| NumericalFailure (N i : nat).

(** The interval mapper of the specification: the transform for [a < b],
    [InvalidInterval] otherwise. *)
Definition IntervalMapper_map (a b : R) (pto peso : list R)
  : (list R * list R) + fallo :=
  if Rlt_dec a b then
    inl (map (fun x => 0.5 * (b - a) * x + 0.5 * (b + a)) pto,
         map (fun w => 0.5 * (b - a) * w) peso)
  else inr InvalidInterval.

(** *** The node-weight generator *)

Module NodeWeightGenerator.

Section Newton.

(** Modelled from the spec: the convergence tolerance and the iteration
    cap of the root refinement, which section 4.1 leaves to the
    implementer. *)
Variable tolerancia : R.
Variable tope : nat.

(** Modelled from the spec: the Legendre polynomials of section 4.1.
    [legendre n x] is the pair [(P_n x, P_(n-1) x)] of the three-term
    recurrence [(k+1) P_(k+1) = (2k+1) x P_k - k P_(k-1)], from [P_0 = 1]
    and [P_1 = x]. *)
Fixpoint legendre (n : nat) (x : R) : R * R :=
  match n with
  | O => (1, 0)
  | S k =>
      let (pk, pk1) := legendre k x in
      (((2 * INR k + 1) * x * pk - INR k * pk1) / (INR k + 1), pk)
  end.

Definition P (n : nat) (x : R) : R := fst (legendre n x).

(** Modelled from the spec: the derivative,
    [P'_N(x) = N (x P_N(x) - P_(N-1)(x)) / (x^2 - 1)]. *)
Definition dP (n : nat) (x : R) : R :=
  INR n * (x * P n x - snd (legendre n x)) / (x ^ 2 - 1).

(** Modelled from the spec: the initial guess for the root of index
    [i], [cos(pi (i + 0.75) / (N + 0.5))]. *)
Definition aproximacion_inicial (n i : nat) : R :=
  cos (PI * (INR i + 0.75) / (INR n + 0.5)).

(** Modelled from the spec: the Newton-Raphson iteration,
    [x <- x - P_N(x) / P'_N(x)] until the update is smaller than the
    tolerance; [None] when the cap is hit first. *)
Fixpoint newton (pasos : nat) (n : nat) (x : R) : option R :=
  match pasos with
  | O => None
  | S pasos' =>
      let dx := P n x / dP n x in
      let x' := x - dx in
      if Rlt_dec (Rabs dx) tolerancia then Some x'
      else newton pasos' n x'
  end.

(** Modelled from the spec: the weight of a converged root,
    [w_i = 2 / ((1 - x_i^2) P'_N(x_i)^2)]. *)
Definition peso_de (n : nat) (x : R) : R :=
  2 / ((1 - x ^ 2) * dP n x ^ 2).

(** Modelled from the spec: one root and its weight, or the failure
    naming the order and the index of the root. *)
Definition raiz (n i : nat) : (R * R) + fallo :=
  match newton tope n (aproximacion_inicial n i) with
  | Some x => inl (x, peso_de n x)
  | None => inr (NumericalFailure n i)
  end.

(** Modelled from the spec: the roots of the given indices; the first
    failure ends the generation. *)
Fixpoint raices (n : nat) (indices : list nat)
  : (list R * list R) + fallo :=
  match indices with
  | [] => inl ([], [])
  | i :: resto =>
      match raiz n i with
      | inr f => inr f
      | inl (x, w) =>
          match raices n resto with
          | inr f => inr f
          | inl (xs, ws) => inl (x :: xs, w :: ws)
          end
      end
  end.

(** Modelled from the spec: the generator of its section 4.1.  In the
    program [gaussxw] hands the order to numpy's [leggauss], whose code is
    no part of the repository; what that call returns is modelled by the
    algorithm the specification gives for it.  The initial guesses
    decrease with the index, so the roots are listed from the index
    [n - 1] down to 0. *)
Definition generate (n : nat) : (list R * list R) + fallo :=
  raices n (rev (seq 0 n)).

End Newton.

End NodeWeightGenerator.

(** A result multiplied by a number. *)
Definition escalar (c : R) (r : resultado R) : resultado R :=
  bind r (fun v => Ok (c * v)).

(** ** Theorems *)

(** *** The interval mapper, entry by entry *)

Lemma gaussxwab_length (a b : R) (pto peso : list R) :
  length (fst (gaussxwab a b pto peso)) = length pto /\
  length (snd (gaussxwab a b pto peso)) = length peso.
Proof.
  unfold gaussxwab. cbn [fst snd].
  split; apply length_map.
Qed.

Lemma gaussxwab_nth_pto (a b : R) (pto peso : list R) (i : nat) :
  (i < length pto)%nat ->
  nth i (fst (gaussxwab a b pto peso)) 0
  = 0.5 * (b - a) * nth i pto 0 + 0.5 * (b + a).
Proof.
  intro Hi. unfold gaussxwab. cbn [fst].
  rewrite (nth_indep _ 0 (0.5 * (b - a) * 0 + 0.5 * (b + a)))
    by (rewrite length_map; exact Hi).
  apply (map_nth (fun x => 0.5 * (b - a) * x + 0.5 * (b + a))).
Qed.

Lemma gaussxwab_nth_peso (a b : R) (pto peso : list R) (i : nat) :
  (i < length peso)%nat ->
  nth i (snd (gaussxwab a b pto peso)) 0 = 0.5 * (b - a) * nth i peso 0.
Proof.
  intro Hi. unfold gaussxwab. cbn [snd].
  rewrite (nth_indep _ 0 (0.5 * (b - a) * 0))
    by (rewrite length_map; exact Hi).
  apply (map_nth (fun w => 0.5 * (b - a) * w)).
Qed.

(** C3: for every reference rule and every pair of bounds, the interval
    mapper returns arrays of the lengths of its inputs, whose entry [i]
    is [0.5*(b-a)*x_i + 0.5*(b+a)] for the nodes and [0.5*(b-a)*w_i] for
    the weights. *)
Theorem gaussxwab_formula (a b : R) (pto peso : list R) :
  let (pto_esc, peso_esc) := gaussxwab a b pto peso in
  length pto_esc = length pto /\
  length peso_esc = length peso /\
  (forall i, (i < length pto)%nat ->
     nth i pto_esc 0 = 0.5 * (b - a) * nth i pto 0 + 0.5 * (b + a)) /\
  (forall i, (i < length peso)%nat ->
     nth i peso_esc 0 = 0.5 * (b - a) * nth i peso 0).
Proof.
  pose proof (gaussxwab_length a b pto peso) as [Hx Hw].
  pose proof (gaussxwab_nth_pto a b pto peso) as Hnx.
  pose proof (gaussxwab_nth_peso a b pto peso) as Hnw.
  destruct (gaussxwab a b pto peso) as [pto_esc peso_esc].
  cbn [fst snd] in *.
  repeat split; assumption.
Qed.

(** *** Sums *)

Lemma fold_left_Rplus_acc (v : list R) (a : R) :
  fold_left Rplus v a = a + sum_list v.
Proof.
  unfold sum_list.
  revert a.
  induction v as [|x v IH]; intro a; simpl.
  - ring.
  - rewrite (IH (a + x)), (IH (0 + x)). ring.
Qed.

Lemma sum_list_nil : sum_list [] = 0.
Proof. reflexivity. Qed.

Lemma sum_list_cons (x : R) (v : list R) :
  sum_list (x :: v) = x + sum_list v.
Proof.
  unfold sum_list at 1. simpl.
  rewrite fold_left_Rplus_acc. ring.
Qed.

Lemma sum_list_scale (c : R) (v : list R) :
  sum_list (map (Rmult c) v) = c * sum_list v.
Proof.
  induction v as [|x v IH]; simpl.
  - rewrite sum_list_nil. ring.
  - rewrite !sum_list_cons, IH. ring.
Qed.

Lemma sumatoria_ext (n : nat) (t u : nat -> R) :
  (forall i, (i < n)%nat -> t i = u i) -> sumatoria n t = sumatoria n u.
Proof.
  induction n as [|n IH]; intro H; simpl.
  - reflexivity.
  - rewrite IH by (intros i Hi; apply H; lia).
    rewrite (H n) by lia. reflexivity.
Qed.

Lemma sumatoria_shift (n : nat) (t : nat -> R) :
  sumatoria (S n) t = t O + sumatoria n (fun i => t (S i)).
Proof.
  induction n as [|n IH].
  - simpl. ring.
  - change (sumatoria (S (S n)) t) with (sumatoria (S n) t + t (S n)).
    rewrite IH. simpl. ring.
Qed.

(** The sum numpy forms for arrays of one length is the weighted sum. *)
Lemma sum_mul_elem (f : R -> R) (pto peso : list R) :
  length pto = length peso ->
  sum_list (mul_elem peso (map f pto)) = suma_ponderada pto peso f.
Proof.
  unfold suma_ponderada.
  revert peso.
  induction pto as [|x pto IH]; intros [|w peso] Hlen;
    simpl in Hlen; try discriminate.
  - reflexivity.
  - cbn [map mul_elem length].
    rewrite sum_list_cons, sumatoria_shift.
    cbn [nth].
    rewrite IH by lia.
    reflexivity.
Qed.

Lemma mul_vec_same (u v : list R) :
  length u = length v -> mul_vec u v = Ok (mul_elem u v).
Proof.
  intro H. unfold mul_vec.
  rewrite H, Nat.eqb_refl. reflexivity.
Qed.

Lemma eva_int_vectorizar (f : R -> R) (pto peso : list R) :
  length pto = length peso ->
  eva_int pto peso (vectorizar f) = Ok (sum_list (mul_elem peso (map f pto))).
Proof.
  intro H. unfold eva_int, vectorizar. cbn [mul].
  rewrite mul_vec_same by (rewrite length_map; symmetry; exact H).
  reflexivity.
Qed.

(** C4: for a rule of index-aligned nodes and weights and an integrand
    [f] evaluated node by node, [eva_int] returns the weighted sum of the
    values of [f] at the nodes; the result depends on [f] through its
    values at the nodes only. *)
Theorem eva_int_suma_ponderada (pto peso : list R) (f : R -> R) :
  length pto = length peso ->
  eva_int pto peso (vectorizar f) = Ok (suma_ponderada pto peso f) /\
  (forall g : R -> R,
     (forall x, In x pto -> g x = f x) ->
     eva_int pto peso (vectorizar g) = eva_int pto peso (vectorizar f)).
Proof.
  intro Hlen. split.
  - rewrite eva_int_vectorizar by exact Hlen.
    rewrite sum_mul_elem by exact Hlen.
    reflexivity.
  - intros g Hg.
    unfold eva_int, vectorizar.
    rewrite (map_ext_in g f pto Hg).
    reflexivity.
Qed.

Lemma eva_int_suma_ponderada_witness :
  length [1; 2] = length [3; 4] /\
  eva_int [1; 2] [3; 4] (vectorizar (fun x => x * x)) = Ok 19.
Proof.
  split.
  - reflexivity.
  - destruct (eva_int_suma_ponderada [1; 2] [3; 4] (fun x => x * x)
                eq_refl) as [H _].
    rewrite H. f_equal.
    unfold suma_ponderada. simpl. ring.
Defined.

(** *** The examples of the docstrings *)

Lemma sum_list_scale_r (y : R) (v : list R) :
  sum_list (map (fun x => x * y) v) = sum_list v * y.
Proof.
  induction v as [|x v IH]; simpl.
  - rewrite sum_list_nil. ring.
  - rewrite !sum_list_cons, IH. ring.
Qed.

(** [eva_int(pto_esc, peso_esc, lambda x: 2)] on a rule scaled to [0, 1]
    is 2, whenever the weights of the reference rule add up to 2. *)
Lemma eva_int_constante (pto peso : list R) :
  sum_list peso = 2 ->
  eva_int (fst (gaussxwab 0 1 pto peso)) (snd (gaussxwab 0 1 pto peso))
    (fun _ => Escalar 2) = Ok 2.
Proof.
  intro Hsum.
  unfold eva_int, gaussxwab. cbn [fst snd mul bind sum].
  rewrite sum_list_scale_r.
  change (fun w : R => 0.5 * (1 - 0) * w) with (Rmult (0.5 * (1 - 0))).
  rewrite sum_list_scale, Hsum.
  f_equal. lra.
Qed.

(** [func_arg_int(0)] is 0 and [derivada_analitica(0)] is -1/4. *)
Lemma func_arg_int_cero : func_arg_int_1 0 = 0.
Proof.
  unfold func_arg_int_1. ring.
Qed.

Lemma derivada_analitica_cero : derivada_analitica 0 = - (1 / 4).
Proof.
  unfold derivada_analitica.
  replace (2 * 0) with 0 by ring.
  rewrite cos_0, sin_0. field.
Qed.

(** *** Scaling a rule *)

Lemma mul_elem_scale (c : R) (u v : list R) :
  mul_elem (map (Rmult c) u) v = map (Rmult c) (mul_elem u v).
Proof.
  revert v.
  induction u as [|x u IH]; intros [|y v]; simpl; try reflexivity.
  rewrite IH. f_equal. ring.
Qed.

Lemma mul_vec_scale (c : R) (u v : list R) :
  mul_vec (map (Rmult c) u) v =
  bind (mul_vec u v) (fun w => Ok (map (Rmult c) w)).
Proof.
  unfold mul_vec.
  rewrite length_map.
  destruct (Nat.eqb (length u) (length v)) eqn:E.
  - simpl. rewrite mul_elem_scale. reflexivity.
  - destruct u as [|x [|x' u]].
    + destruct v as [|y [|y' v]]; reflexivity.
    + simpl. f_equal. rewrite map_map.
      apply map_ext. intro y. ring.
    + destruct v as [|y [|y' v]]; try reflexivity.
      cbn [map bind]. f_equal.
      rewrite !map_map. cbn [map]. f_equal; [ring|].
      f_equal; [ring|].
      apply map_ext. intro z. ring.
Qed.

(** C10: evaluating the mapped rule on [f] is [0.5*(b-a)] times the
    evaluation of the original rule on [f] composed with the affine map
    [t |-> 0.5*(b-a)*t + 0.5*(b+a)]; where the shapes of the two arrays
    do not fit, both sides raise. *)
Theorem eva_int_gaussxwab (a b : R) (pto peso : list R) (f : R -> R) :
  eva_int (fst (gaussxwab a b pto peso)) (snd (gaussxwab a b pto peso))
    (vectorizar f)
  = escalar (0.5 * (b - a))
      (eva_int pto peso
         (vectorizar (fun t => f (0.5 * (b - a) * t + 0.5 * (b + a))))).
Proof.
  unfold gaussxwab, eva_int, vectorizar, escalar.
  cbn [fst snd mul].
  rewrite map_map.
  change (fun w : R => 0.5 * (b - a) * w) with (Rmult (0.5 * (b - a))).
  rewrite mul_vec_scale.
  destruct (mul_vec peso
              (map (fun x => f (0.5 * (b - a) * x + 0.5 * (b + a))) pto))
    as [w|e]; cbn [bind sum].
  - rewrite sum_list_scale. reflexivity.
  - reflexivity.
Qed.




(** *** The bounds of the interval *)

(** C5, as stated, fails: for the bounds 3 and 1 the mapper of the
    specification rejects the interval, [gaussxwab] returns a rule. *)
Lemma gaussxwab_intervalo_invertido :
  3 >= 1 /\
  IntervalMapper_map 3 1 [0] [2] = inr InvalidInterval /\
  gaussxwab 3 1 [0] [2] = ([2], [-2]).
Proof.
  split; [lra|]. split.
  - unfold IntervalMapper_map.
    destruct (Rlt_dec 3 1) as [H|H]; [lra | reflexivity].
  - unfold gaussxwab. cbn [map].
    repeat f_equal; lra.
Qed.

(** C5, amended: [gaussxwab] tests nothing.  For [a >= b] too it returns
    a rule of the lengths of its inputs whose entries are given by the two
    formulas (so the weights are scaled by a factor that is not
    positive); what it returns is what the mapper of the specification
    returns exactly when [a < b]. *)
Theorem gaussxwab_sin_validacion (a b : R) (pto peso : list R) :
  a >= b ->
  length (fst (gaussxwab a b pto peso)) = length pto /\
  length (snd (gaussxwab a b pto peso)) = length peso /\
  (forall i, (i < length pto)%nat ->
     nth i (fst (gaussxwab a b pto peso)) 0
     = 0.5 * (b - a) * nth i pto 0 + 0.5 * (b + a)) /\
  (forall i, (i < length peso)%nat ->
     nth i (snd (gaussxwab a b pto peso)) 0
     = 0.5 * (b - a) * nth i peso 0) /\
  0.5 * (b - a) <= 0 /\
  IntervalMapper_map a b pto peso <> inl (gaussxwab a b pto peso) /\
  (forall a' b', a' < b' ->
     IntervalMapper_map a' b' pto peso = inl (gaussxwab a' b' pto peso)).
Proof.
  intro Hab.
  pose proof (gaussxwab_length a b pto peso) as [Hx Hw].
  split; [exact Hx|].
  split; [exact Hw|].
  split; [intros i Hi; apply gaussxwab_nth_pto; exact Hi|].
  split; [intros i Hi; apply gaussxwab_nth_peso; exact Hi|].
  split; [lra|].
  split.
  - unfold IntervalMapper_map.
    destruct (Rlt_dec a b) as [H|H]; [lra | discriminate].
  - intros a' b' H'. unfold IntervalMapper_map.
    destruct (Rlt_dec a' b') as [H|H]; [reflexivity | lra].
Qed.

Lemma gaussxwab_sin_validacion_witness :
  3 >= 1 /\
  IntervalMapper_map 3 1 [0] [2] <> inl (gaussxwab 3 1 [0] [2]).
Proof.
  split; [lra|].
  apply (gaussxwab_sin_validacion 3 1 [0] [2]). lra.
Defined.

(** *** The error of line 193 *)

Lemma div_no_cero (x y : R) : y <> 0 -> div x y = Finito (x / y).
Proof.
  intro Hy. unfold div.
  destruct (Req_dec_T y 0) as [E|E]; [contradiction | reflexivity].
Qed.





(** *** The search loop *)

Section Busqueda_propiedades.

Variable leggauss : nat -> resultado (list R * list R).

Lemma valor_ok (n : nat) (a : R) :
  ensayo leggauss n = Ok a -> valor leggauss n = a.
Proof.
  intro H. unfold valor. rewrite H. reflexivity.
Qed.

(** Appending the record of the trial of order [S p] to the records of
    the orders up to [p]. *)
Lemma registros_paso (p n' : nat) (s : estado) (a : R) :
  N s = S p ->
  registros leggauss p s ->
  ensayo leggauss (S p) = Ok a ->
  registros leggauss (S p)
    {| N := n';
       N_valores := N_valores s ++ [N s];
       integral_valores := integral_valores s ++ [a];
       errores := errores s ++ [error_relativo a analytic];
       approx := Some a |}.
Proof.
  intros HN (Hn & Hi & He & _) Ha.
  pose proof (valor_ok _ _ Ha) as Hv.
  unfold registros. cbn [N_valores integral_valores errores approx].
  rewrite seq_S, !map_app. cbn [map Nat.add].
  rewrite Hn, Hi, He, HN, Hv.
  repeat split; reflexivity.
Qed.

(** One turn, case by case. *)
Lemma iteracion_error (s : estado) (e : excepcion) :
  ensayo leggauss (N s) = Error e -> iteracion leggauss s = Error e.
Proof.
  intro H. unfold iteracion. rewrite H. reflexivity.
Qed.

Lemma iteracion_pasa (s : estado) (a : R) :
  ensayo leggauss (N s) = Ok a ->
  ltb (error_relativo a analytic) tol = true ->
  iteracion leggauss s =
    Ok (Sale, {| N := N s;
                 N_valores := N_valores s ++ [N s];
                 integral_valores := integral_valores s ++ [a];
                 errores := errores s ++ [error_relativo a analytic];
                 approx := Some a |}).
Proof.
  intros H L. unfold iteracion. rewrite H. cbn [bind]. rewrite L.
  reflexivity.
Qed.

Lemma iteracion_no_pasa (s : estado) (a : R) :
  ensayo leggauss (N s) = Ok a ->
  ltb (error_relativo a analytic) tol = false ->
  iteracion leggauss s =
    Ok (if (50 <? S (N s))%nat then Sale else Sigue,
        {| N := S (N s);
           N_valores := N_valores s ++ [N s];
           integral_valores := integral_valores s ++ [a];
           errores := errores s ++ [error_relativo a analytic];
           approx := Some a |}).
Proof.
  intros H L. unfold iteracion. rewrite H. cbn [bind]. rewrite L.
  cbn [N N_valores integral_valores errores approx].
  destruct (50 <? S (N s))%nat; reflexivity.
Qed.

(** The loop entered at order [S p] with [S m] turns left, where
    [S p + S m = 51]: it ends after [S d] turns, at the order [S p + d],
    and not before. *)
Lemma bucle_desde (m : nat) :
  forall (p : nat) (s : estado),
    N s = S p ->
    (S p + S m = 51)%nat ->
    registros leggauss p s ->
    (forall j, (1 <= j <= p)%nat -> no_pasa leggauss j) ->
    exists (d : nat) (r : resultado estado),
      (S p + d <= 50)%nat /\
      bucle leggauss d s = None /\
      bucle leggauss (S d) s = Some r /\
      bucle leggauss (S m) s = Some r /\
      (forall j, (1 <= j <= p + d)%nat -> no_pasa leggauss j) /\
      desenlace leggauss (S p + d) r.
Proof.
  induction m as [|m IH]; intros p s HN Hm Hreg Hno;
    destruct (ensayo leggauss (N s)) as [a|e] eqn:Ha;
    try destruct (ltb (error_relativo a analytic) tol) eqn:L.
  - (* order 50 passes *)
    eexists 0%nat, _.
    cbn [bucle]. rewrite (iteracion_pasa s a Ha L), !Nat.add_0_r.
    split; [lia|]. do 3 (split; [reflexivity|]).
    split; [exact Hno|].
    split.
    + apply (registros_paso p (N s) s a HN Hreg).
      rewrite <- HN. exact Ha.
    + left. split; [|exact HN].
      exists a. rewrite <- HN. split; assumption.
  - (* order 50 does not pass: the cap *)
    assert (Hp : p = 49%nat) by lia.
    eexists 0%nat, _.
    cbn [bucle]. rewrite (iteracion_no_pasa s a Ha L), !Nat.add_0_r.
    replace (50 <? S (N s))%nat with true
      by (symmetry; apply Nat.ltb_lt; lia).
    split; [lia|]. do 3 (split; [reflexivity|]).
    split; [exact Hno|].
    split.
    + apply (registros_paso p (S (N s)) s a HN Hreg).
      rewrite <- HN. exact Ha.
    + right. cbn [N].
      split; [|split; lia].
      exists a. rewrite <- HN. split; assumption.
  - (* order 50 raises *)
    eexists 0%nat, _.
    cbn [bucle]. rewrite (iteracion_error s e Ha), !Nat.add_0_r.
    split; [lia|]. do 3 (split; [reflexivity|]).
    split; [exact Hno|].
    cbn [desenlace]. rewrite <- HN. exact Ha.
  - (* an earlier order passes *)
    eexists 0%nat, _.
    cbn [bucle]. rewrite (iteracion_pasa s a Ha L), !Nat.add_0_r.
    split; [lia|]. do 3 (split; [reflexivity|]).
    split; [exact Hno|].
    split.
    + apply (registros_paso p (N s) s a HN Hreg).
      rewrite <- HN. exact Ha.
    + left. split; [|exact HN].
      exists a. rewrite <- HN. split; assumption.
  - (* an earlier order does not pass: the loop goes on *)
    set (s2 := {| N := S (N s);
                  N_valores := N_valores s ++ [N s];
                  integral_valores := integral_valores s ++ [a];
                  errores := errores s ++ [error_relativo a analytic];
                  approx := Some a |}).
    assert (Hit : iteracion leggauss s = Ok (Sigue, s2)).
    { rewrite (iteracion_no_pasa s a Ha L).
      replace (50 <? S (N s))%nat with false
        by (symmetry; apply Nat.ltb_ge; lia).
      reflexivity. }
    assert (Hreg2 : registros leggauss (S p) s2).
    { apply (registros_paso p _ s a HN Hreg).
      rewrite <- HN. exact Ha. }
    assert (Hno2 : forall j, (1 <= j <= S p)%nat -> no_pasa leggauss j).
    { intros j Hj.
      destruct (Nat.eq_dec j (S p)) as [E|E].
      - subst j. exists a. rewrite <- HN. split; assumption.
      - apply Hno. lia. }
    destruct (IH (S p) s2) as (d & r & Hd & Hnone & Hsome & Hfuel & Hnod & Hdes).
    { unfold s2. cbn [N]. rewrite HN. reflexivity. }
    { lia. }
    { exact Hreg2. }
    { exact Hno2. }
    exists (S d), r.
    replace (S p + S d)%nat with (S (S p) + d)%nat by lia.
    replace (p + S d)%nat with (S p + d)%nat by lia.
    split; [exact Hd|].
    split; [cbn [bucle]; rewrite Hit; exact Hnone|].
    split; [cbn [bucle]; rewrite Hit; exact Hsome|].
    split; [|split; assumption].
    change (bucle leggauss (S (S m)) s) with
      (match iteracion leggauss s with
       | Error e => Some (Error e)
       | Ok (Sale, s') => Some (Ok s')
       | Ok (Sigue, s') => bucle leggauss (S m) s'
       end).
    rewrite Hit. exact Hfuel.
  - (* an earlier order raises *)
    eexists 0%nat, _.
    cbn [bucle]. rewrite (iteracion_error s e Ha), !Nat.add_0_r.
    split; [lia|]. do 3 (split; [reflexivity|]).
    split; [exact Hno|].
    cbn [desenlace]. rewrite <- HN. exact Ha.
Qed.

(** A trial on a rule of index-aligned arrays does not raise: its value
    is the weighted sum of [func_arg_int] over the rule scaled to
    [1, 3]. *)
Lemma ensayo_regla (n : nat) (pto peso : list R) :
  leggauss n = Ok (pto, peso) ->
  length pto = length peso ->
  ensayo leggauss n =
    Ok (suma_ponderada (fst (gaussxwab 1 3 pto peso))
          (snd (gaussxwab 1 3 pto peso)) func_arg_int_1).
Proof.
  intros Hrule Hlen.
  unfold ensayo, gaussxw. rewrite Hrule. cbn [bind fst snd].
  pose proof (gaussxwab_length 1 3 pto peso) as [Hx Hw].
  destruct (gaussxwab 1 3 pto peso) as [pto_esc peso_esc].
  cbn [fst snd] in *.
  change func_arg_int with (vectorizar func_arg_int_1).
  assert (Hesc : length pto_esc = length peso_esc) by congruence.
  rewrite (eva_int_vectorizar func_arg_int_1 _ _ Hesc).
  rewrite (sum_mul_elem func_arg_int_1 _ _ Hesc).
  reflexivity.
Qed.

(** With a generator that returns index-aligned arrays for the orders 1
    to 50, [main] leaves its loop by a [break]. *)
Lemma main_sin_excepcion :
  (forall n, (1 <= n <= 50)%nat ->
     exists pto peso,
       leggauss n = Ok (pto, peso) /\ length pto = length peso) ->
  exists s, main leggauss = Some (Ok s).
Proof.
  intro Hgen.
  destruct (bucle_desde 49 0 inicial)
    as (d & r & Hd & _ & _ & Hfuel & _ & Hdes).
  - reflexivity.
  - reflexivity.
  - repeat split. intros j H. discriminate H.
  - intros j Hj. lia.
  - destruct r as [s|e].
    + exists s. exact Hfuel.
    + cbn [desenlace] in Hdes.
      destruct (Hgen (1 + d)%nat) as (pto & peso & Hrule & Hlen); [lia|].
      rewrite (ensayo_regla _ _ _ Hrule Hlen) in Hdes.
      discriminate Hdes.
Qed.

End Busqueda_propiedades.

(** A generator whose two arrays do not fit: the product of [eva_int]
    raises in the first trial, and [main] ends with that exception. *)
Lemma main_propaga_excepcion :
  main (fun _ => Ok ([0; 1; 2], [1; 1])) = Some (Error ValueError).
Proof. reflexivity. Qed.

(** C2: the loop tries the orders 1, 2, 3, ... in that sequence and
    records each trial once; it ends after [k] turns, with [k] at most
    50, and not before: at the first order [k] whose error is below the
    tolerance, [N] being left at [k], or, no error of the 50 orders being
    below it, at the order 50, [N] being left at 51.  (A trial that raises
    ends [main] with its exception.)  In every case [main] ends within 50
    turns. *)
Theorem main_busqueda (leggauss : nat -> resultado (list R * list R)) :
  exists (k : nat) (r : resultado estado),
    (1 <= k <= 50)%nat /\
    main leggauss = Some r /\
    bucle leggauss k inicial = Some r /\
    bucle leggauss (k - 1) inicial = None /\
    (forall j, (1 <= j < k)%nat -> no_pasa leggauss j) /\
    desenlace leggauss k r.
Proof.
  destruct (bucle_desde leggauss 49 0 inicial)
    as (d & r & Hd & Hnone & Hsome & Hfuel & Hno & Hdes).
  - reflexivity.
  - reflexivity.
  - repeat split. intros j H. discriminate H.
  - intros j Hj. lia.
  - exists (S d), r.
    split; [lia|].
    split; [exact Hfuel|].
    split; [exact Hsome|].
    split; [replace (S d - 1)%nat with d by lia; exact Hnone|].
    split; [intros j Hj; apply Hno; lia|].
    exact Hdes.
Qed.

(** *** The generator at order 1 *)

Section Orden_uno.

Import NodeWeightGenerator.

Lemma P_uno (x : R) : P 1 x = x.
Proof.
  unfold P. cbn [legendre fst INR]. field.
Qed.

Lemma dP_uno_cero : dP 1 0 = 1.
Proof.
  unfold dP. rewrite P_uno. cbn [legendre snd INR]. field.
Qed.

Lemma aproximacion_inicial_uno : aproximacion_inicial 1 0 = 0.
Proof.
  unfold aproximacion_inicial. cbn [INR].
  replace (PI * (0 + 0.75) / (1 + 0.5)) with (PI / 2) by lra.
  apply cos_PI2.
Qed.

Lemma newton_uno (tolerancia : R) (pasos : nat) :
  0 < tolerancia -> newton tolerancia (S pasos) 1 0 = Some 0.
Proof.
  intro Htol. cbn [newton].
  rewrite P_uno, dP_uno_cero.
  replace (0 / 1) with 0 by field.
  rewrite Rabs_R0.
  destruct (Rlt_dec 0 tolerancia) as [_|H]; [|contradiction].
  f_equal. ring.
Qed.

Lemma peso_de_uno : peso_de 1 0 = 2.
Proof.
  unfold peso_de. rewrite dP_uno_cero. field.
Qed.

End Orden_uno.

(** C8: for the order 1 the generator yields one node, 0, and one weight,
    2, whatever the positive tolerance and the cap of at least one step
    of the root refinement. *)
Theorem generate_orden_uno (tolerancia : R) (tope : nat) :
  0 < tolerancia ->
  (1 <= tope)%nat ->
  NodeWeightGenerator.generate tolerancia tope 1 = inl ([0], [2]).
Proof.
  intros Htol Htope.
  destruct tope as [|pasos]; [lia|].
  unfold NodeWeightGenerator.generate.
  cbn [seq rev app NodeWeightGenerator.raices].
  unfold NodeWeightGenerator.raiz.
  rewrite aproximacion_inicial_uno, (newton_uno tolerancia pasos Htol).
  rewrite peso_de_uno.
  reflexivity.
Qed.

Lemma generate_orden_uno_witness :
  NodeWeightGenerator.generate 1e-15 100 1 = inl ([0], [2]).
Proof.
  apply (generate_orden_uno 1e-15 100); [lra | lia].
Defined.

(** ** Further properties of the code *)

(** *** The integrand and its antiderivative *)

Lemma derivable_pt_lim_ext (f g : R -> R) (x l l' : R) :
  (forall t, f t = g t) -> l = l' ->
  derivable_pt_lim f x l -> derivable_pt_lim g x l'.
Proof.
  intros Hfg Hl Hf eps Heps. subst l'.
  destruct (Hf eps Heps) as [delta Hdelta].
  exists delta. intros h Hh Hlt.
  rewrite <- !Hfg. apply Hdelta; assumption.
Qed.

Lemma derivable_pt_lim_doble (x : R) :
  derivable_pt_lim (mult_real_fct 2 id) x 2.
Proof.
  apply (derivable_pt_lim_ext (mult_real_fct 2 id) (mult_real_fct 2 id)
           x (2 * 1) 2).
  - reflexivity.
  - ring.
  - apply derivable_pt_lim_scal, derivable_pt_lim_id.
Qed.

Lemma derivable_pt_lim_cos_doble (x : R) :
  derivable_pt_lim (comp cos (mult_real_fct 2 id)) x (- sin (2 * x) * 2).
Proof.
  apply (derivable_pt_lim_comp (mult_real_fct 2 id) cos x 2 (- sin (2 * x))).
  - apply derivable_pt_lim_doble.
  - apply derivable_pt_lim_cos.
Qed.

Lemma derivable_pt_lim_sin_doble (x : R) :
  derivable_pt_lim (comp sin (mult_real_fct 2 id)) x (cos (2 * x) * 2).
Proof.
  apply (derivable_pt_lim_comp (mult_real_fct 2 id) sin x 2 (cos (2 * x))).
  - apply derivable_pt_lim_doble.
  - apply derivable_pt_lim_sin.
Qed.

Lemma func_arg_int_derivada (x : R) :
  derivable_pt_lim derivada_analitica x (func_arg_int_1 x).
Proof.
  pose proof (derivable_pt_lim_pow x 7) as H7.
  pose proof (derivable_pt_lim_pow x 2) as H2.
  pose proof (derivable_pt_lim_id x) as H1.
  pose proof (derivable_pt_lim_cos_doble x) as Hc.
  pose proof (derivable_pt_lim_sin_doble x) as Hs.
  pose proof (derivable_pt_lim_scal _ (/ 7) _ _ H7) as A.
  pose proof (derivable_pt_lim_mult _ _ _ _ _
                (derivable_pt_lim_scal _ (/ 2) _ _ H2) Hc) as B.
  pose proof (derivable_pt_lim_mult _ _ _ _ _
                (derivable_pt_lim_scal _ (/ 2) _ _ H1) Hs) as C.
  pose proof (derivable_pt_lim_scal _ (/ 4) _ _ Hc) as D.
  pose proof (derivable_pt_lim_minus _ _ _ _ _
               (derivable_pt_lim_minus _ _ _ _ _
                 (derivable_pt_lim_plus _ _ _ _ _ A B) C) D) as H.
  refine (derivable_pt_lim_ext _ _ x _ _ _ _ H).
  - intro t. unfold derivada_analitica, minus_fct, plus_fct, mult_fct,
      mult_real_fct, comp, id. field.
  - unfold func_arg_int_1, mult_real_fct, comp, id. simpl. field.
Qed.

(** X1: [derivada_analitica] is an antiderivative of [func_arg_int]: at
    every point its derivative is the value of the integrand. *)
Theorem derivada_analitica_primitiva (x : R) :
  derivable_pt_lim derivada_analitica x (func_arg_int_1 x).
Proof.
  exact (func_arg_int_derivada x).
Qed.

Lemma func_arg_int_continua : continuity func_arg_int_1.
Proof.
  unfold func_arg_int_1.
  change (continuity
    ((fun x => x ^ 6) - (fun x => x ^ 2) * comp sin (mult_real_fct 2 id))%F).
  apply continuity_minus.
  - apply derivable_continuous, derivable_pow.
  - apply continuity_mult.
    + apply derivable_continuous, derivable_pow.
    + apply continuity_comp.
      * apply continuity_scal. apply derivable_continuous, derivable_id.
      * apply continuity_sin.
Qed.

(** X2: the Riemann integral of [func_arg_int] over any interval is the
    difference of the values of [derivada_analitica] at its ends; over
    [1, 3] it is the reference value [analytic] of [main]. *)
Theorem integral_func_arg_int (a b : R)
  (pr : Riemann_integrable func_arg_int_1 a b) :
  RiemannInt pr = derivada_analitica b - derivada_analitica a.
Proof.
  set (dF := (fun x => exist _ (func_arg_int_1 x) (func_arg_int_derivada x))
             : derivable derivada_analitica).
  exact (FTC_Riemann
           (mkC1 (c1 := derivada_analitica) (diff0 := dF)
              func_arg_int_continua) pr).
Qed.

(** *** The reference value *)

Lemma INR_fact_S (n : nat) : INR (fact (S n)) = INR (S n) * INR (fact n).
Proof. rewrite fact_simpl, mult_INR. reflexivity. Qed.

Lemma PI_mayor_3 : 3 < PI.
Proof. pose proof PI2_3_2. lra. Qed.

(** The partial sums of the sine and cosine series, as numbers. *)
Ltac evalua_serie :=
  unfold sin_approx, cos_approx, sin_term, cos_term;
  cbn [sum_f_R0 Nat.mul Nat.add];
  rewrite ?INR_fact_S;
  cbn [fact INR pow].

Lemma sin_3_cotas : 0.14111 < sin 3 < 0.14114.
Proof.
  pose proof PI_mayor_3.
  destruct (sin_bound 3 3) as [Hlo Hhi]; [lra | lra |].
  revert Hlo Hhi. evalua_serie.
  intros Hlo Hhi. split; lra.
Qed.

Lemma sin_1_cotas : 0.84147 < sin 1 < 0.84148.
Proof.
  pose proof PI_mayor_3.
  destruct (sin_bound 1 2) as [Hlo Hhi]; [lra | lra |].
  revert Hlo Hhi. evalua_serie.
  intros Hlo Hhi. split; lra.
Qed.

Lemma cos_1_cotas : 0.54030 < cos 1 < 0.54031.
Proof.
  pose proof PI_mayor_3.
  destruct (cos_bound 1 2) as [Hlo Hhi]; [lra | lra |].
  revert Hlo Hhi. evalua_serie.
  intros Hlo Hhi. split; lra.
Qed.

Lemma cos_15_cotas : 0.07073 < cos 1.5 < 0.07076.
Proof.
  pose proof PI_mayor_3.
  destruct (cos_bound 1.5 2) as [Hlo Hhi]; [lra | lra |].
  revert Hlo Hhi. evalua_serie.
  intros Hlo Hhi. split; lra.
Qed.

Lemma analytic_entre : 317.34 < analytic < 317.35.
Proof.
  unfold analytic, derivada_analitica.
  rewrite (cos_2a_sin 3), (sin_2a 3), (cos_2a_sin 1), (sin_2a 1).
  replace (cos 3) with (cos (2 * 1.5)) by (f_equal; lra).
  rewrite (cos_2a_cos 1.5).
  pose proof sin_3_cotas as [H3l H3u].
  pose proof sin_1_cotas as [H1l H1u].
  pose proof cos_1_cotas as [Hc1l Hc1u].
  pose proof cos_15_cotas as [Hcl Hcu].
  set (s3 := sin 3) in *. set (s1 := sin 1) in *.
  set (c1 := cos 1) in *. set (c := cos 1.5) in *.
  assert (Hs3 : 0.14111 * 0.14111 < s3 * s3 < 0.14114 * 0.14114)
    by (split; nra).
  assert (Hs1 : 0.84147 * 0.84147 < s1 * s1 < 0.84148 * 0.84148)
    by (split; nra).
  assert (Hcc : 0.07073 * 0.07073 < c * c < 0.07076 * 0.07076)
    by (split; nra).
  assert (Hsc1 : 0.84147 * 0.54030 < s1 * c1 < 0.84148 * 0.54031)
    by (split; nra).
  set (c3 := 2 * c * c - 1).
  assert (Hc3 : -0.989995 < c3 < -0.989986) by (unfold c3; split; lra).
  assert (Hsc3 : - (0.14114 * 0.989995) < s3 * c3 < - (0.14111 * 0.989986))
    by (split; nra).
  split; lra.
Qed.

(** X3: the reference value of [main] and of [test.py],
    [derivada_analitica(3) - derivada_analitica(1)], lies between 317.34
    and 317.35; the divisor of the error of line 193 is therefore
    positive. *)
Theorem analytic_cotas :
  317.34 < derivada_analitica 3 - derivada_analitica 1 < 317.35 /\
  0 < analytic.
Proof.
  pose proof analytic_entre as H.
  split; [exact H | lra].
Qed.

(** *** The shapes [eva_int] accepts *)

Lemma sum_list_app (u v : list R) :
  sum_list (u ++ v) = sum_list u + sum_list v.
Proof.
  induction u as [|x u IH]; simpl.
  - rewrite sum_list_nil. ring.
  - rewrite !sum_list_cons, IH. ring.
Qed.

Lemma mul_vec_error (u v : list R) :
  mul_vec u v = Error ValueError <->
  length u <> length v /\ length u <> 1%nat /\ length v <> 1%nat.
Proof.
  unfold mul_vec.
  destruct (Nat.eqb (length u) (length v)) eqn:E.
  - apply Nat.eqb_eq in E. split.
    + discriminate.
    + intros [H _]. contradiction.
  - apply Nat.eqb_neq in E.
    destruct u as [|x [|x' u]]; destruct v as [|y [|y' v]];
      cbn [length] in *; split;
      try discriminate; try (intros _; repeat split; lia);
      try (intros (H1 & H2 & H3); lia); try reflexivity.
Qed.

(** X4: with an integrand applied node by node, [eva_int] raises
    [ValueError] exactly when the two arrays differ in length and neither
    has length one. *)
Theorem eva_int_error (pto peso : list R) (f : R -> R) :
  eva_int pto peso (vectorizar f) = Error ValueError <->
  length pto <> length peso /\ length pto <> 1%nat /\ length peso <> 1%nat.
Proof.
  unfold eva_int, vectorizar. cbn [mul].
  pose proof (mul_vec_error peso (map f pto)) as H.
  rewrite length_map in H.
  destruct (mul_vec peso (map f pto)) as [w|e]; cbn [bind].
  - split.
    + discriminate.
    + intros (H1 & H2 & H3).
      assert (Hw : @Ok (list R) w = Error ValueError)
        by (apply H; repeat split; congruence).
      discriminate Hw.
  - destruct e. split.
    + intros _. destruct H as [H _].
      destruct (H eq_refl) as (H1 & H2 & H3).
      repeat split; congruence.
    + reflexivity.
Qed.

(** X5: an array of length one is stretched without notice.  One weight
    for several nodes multiplies the sum of the values of [f]; several
    weights for one node multiply the one value of [f] by their sum. *)
Theorem eva_int_difusion (f : R -> R) :
  (forall w pto,
     eva_int pto [w] (vectorizar f) = Ok (w * sum_list (map f pto))) /\
  (forall x peso,
     eva_int [x] peso (vectorizar f) = Ok (sum_list peso * f x)).
Proof.
  split.
  - intros w pto.
    unfold eva_int, vectorizar, mul, mul_vec.
    rewrite length_map.
    destruct pto as [|x [|x' pto]]; cbn [length Nat.eqb map mul_elem bind sum].
    + rewrite !sum_list_nil. f_equal. ring.
    + rewrite !sum_list_cons, !sum_list_nil. f_equal. ring.
    + change (f x :: f x' :: map f pto) with (map f (x :: x' :: pto)).
      change (w * f x :: w * f x' :: map (Rmult w) (map f pto))
        with (map (Rmult w) (map f (x :: x' :: pto))).
      rewrite sum_list_scale. reflexivity.
  - intros x peso.
    unfold eva_int, vectorizar, mul, mul_vec.
    destruct peso as [|w [|w' peso]];
      cbn [length Nat.eqb map mul_elem bind sum].
    + rewrite !sum_list_nil. f_equal. ring.
    + rewrite !sum_list_cons, !sum_list_nil. f_equal. ring.
    + change (w * f x :: w' * f x :: map (fun x0 => x0 * f x) peso)
        with (map (fun x0 => x0 * f x) (w :: w' :: peso)).
      rewrite sum_list_scale_r. reflexivity.
Qed.

(** *** [eva_int] as a function of the integrand and of the rule *)

Lemma sum_map_lineal (c : R) (f g : R -> R) (v : list R) :
  sum_list (map (fun x => c * f x + g x) v)
  = c * sum_list (map f v) + sum_list (map g v).
Proof.
  induction v as [|x v IH]; cbn [map].
  - rewrite !sum_list_nil. ring.
  - rewrite !sum_list_cons, IH. ring.
Qed.

Lemma sum_mul_elem_lineal (c : R) (f g : R -> R) (pto peso : list R) :
  sum_list (mul_elem peso (map (fun x => c * f x + g x) pto))
  = c * sum_list (mul_elem peso (map f pto))
    + sum_list (mul_elem peso (map g pto)).
Proof.
  revert peso.
  induction pto as [|x pto IH]; intros [|w peso]; cbn [map mul_elem];
    rewrite ?sum_list_nil, ?sum_list_cons, ?IH; ring.
Qed.

(** X6: [eva_int] is linear in the integrand, whatever the two arrays:
    the value for [c * f + g] is [c] times the value for [f] plus the
    value for [g], and it raises when those raise. *)
Theorem eva_int_lineal (c : R) (f g : R -> R) (pto peso : list R) :
  eva_int pto peso (vectorizar (fun x => c * f x + g x))
  = bind (eva_int pto peso (vectorizar f)) (fun u =>
      bind (eva_int pto peso (vectorizar g)) (fun v => Ok (c * u + v))).
Proof.
  unfold eva_int, vectorizar, mul, mul_vec.
  rewrite !length_map.
  destruct (Nat.eqb (length peso) (length pto)) eqn:E.
  - cbn [bind sum]. rewrite sum_mul_elem_lineal. reflexivity.
  - destruct peso as [|w [|w' peso]].
    + destruct pto as [|x [|x' pto]]; cbn [map bind sum];
        try reflexivity.
      rewrite sum_list_nil. f_equal. ring.
    + cbn [bind sum].
      rewrite !sum_list_scale, sum_map_lineal. f_equal. ring.
    + destruct pto as [|x [|x' pto]]; cbn [map bind sum];
        try reflexivity.
      change (w * (c * f x + g x) :: w' * (c * f x + g x)
              :: map (fun x0 => x0 * (c * f x + g x)) peso)
        with (map (fun x0 => x0 * (c * f x + g x)) (w :: w' :: peso)).
      change (w * f x :: w' * f x :: map (fun x0 => x0 * f x) peso)
        with (map (fun x0 => x0 * f x) (w :: w' :: peso)).
      change (w * g x :: w' * g x :: map (fun x0 => x0 * g x) peso)
        with (map (fun x0 => x0 * g x) (w :: w' :: peso)).
      rewrite !sum_list_scale_r. f_equal. ring.
Qed.

Lemma mul_elem_app (u1 u2 v1 v2 : list R) :
  length u1 = length v1 ->
  mul_elem (u1 ++ u2) (v1 ++ v2) = mul_elem u1 v1 ++ mul_elem u2 v2.
Proof.
  revert v1.
  induction u1 as [|x u1 IH]; intros [|y v1] H; simpl in H;
    try discriminate.
  - reflexivity.
  - cbn [app mul_elem]. rewrite IH by lia. reflexivity.
Qed.

(** X7: two rules of index-aligned arrays put end to end give the sum of
    what each gives: a composite rule is evaluated piece by piece. *)
Theorem eva_int_app (pto1 peso1 pto2 peso2 : list R) (f : R -> R) :
  length pto1 = length peso1 ->
  length pto2 = length peso2 ->
  eva_int (pto1 ++ pto2) (peso1 ++ peso2) (vectorizar f)
  = Ok (suma_ponderada pto1 peso1 f + suma_ponderada pto2 peso2 f) /\
  eva_int pto1 peso1 (vectorizar f) = Ok (suma_ponderada pto1 peso1 f) /\
  eva_int pto2 peso2 (vectorizar f) = Ok (suma_ponderada pto2 peso2 f).
Proof.
  intros H1 H2.
  rewrite !eva_int_vectorizar
    by (rewrite ?length_app; congruence).
  rewrite map_app, mul_elem_app by (rewrite length_map; congruence).
  rewrite sum_list_app, !sum_mul_elem by assumption.
  repeat split; reflexivity.
Qed.

Lemma eva_int_app_witness :
  eva_int ([1] ++ [2]) ([3] ++ [4]) (vectorizar (fun x => x))
  = Ok (suma_ponderada [1] [3] (fun x => x)
        + suma_ponderada [2] [4] (fun x => x)).
Proof.
  apply (eva_int_app [1] [3] [2] [4] (fun x => x)); reflexivity.
Defined.

Lemma sum_mul_elem_le (f g : R -> R) (pto peso : list R) :
  Forall (fun w => 0 <= w) peso ->
  (forall x, In x pto -> f x <= g x) ->
  sum_list (mul_elem peso (map f pto))
  <= sum_list (mul_elem peso (map g pto)).
Proof.
  intros Hw. revert pto.
  induction Hw as [|w peso Hw0 _ IH]; intros [|x pto] Hfg;
    cbn [map mul_elem]; rewrite ?sum_list_nil, ?sum_list_cons;
    try lra.
  assert (Hx : f x <= g x) by (apply Hfg; left; reflexivity).
  assert (Hrest : sum_list (mul_elem peso (map f pto))
                  <= sum_list (mul_elem peso (map g pto)))
    by (apply IH; intros y Hy; apply Hfg; right; exact Hy).
  nra.
Qed.

(** X8: with weights that are not negative, [eva_int] is monotone in the
    integrand: where [f] is at most [g] at every node, the value for [f]
    is at most the value for [g]. *)
Theorem eva_int_monotona (f g : R -> R) (pto peso : list R) :
  length pto = length peso ->
  Forall (fun w => 0 <= w) peso ->
  (forall x, In x pto -> f x <= g x) ->
  exists u v,
    eva_int pto peso (vectorizar f) = Ok u /\
    eva_int pto peso (vectorizar g) = Ok v /\
    u <= v.
Proof.
  intros Hlen Hw Hfg.
  exists (sum_list (mul_elem peso (map f pto))),
         (sum_list (mul_elem peso (map g pto))).
  rewrite !eva_int_vectorizar by exact Hlen.
  repeat split.
  apply sum_mul_elem_le; assumption.
Qed.

Lemma eva_int_monotona_witness :
  exists u v,
    eva_int [1; 2] [3; 4] (vectorizar (fun x => x)) = Ok u /\
    eva_int [1; 2] [3; 4] (vectorizar (fun x => x + 1)) = Ok v /\
    u <= v.
Proof.
  apply (eva_int_monotona (fun x => x) (fun x => x + 1) [1; 2] [3; 4]).
  - reflexivity.
  - repeat constructor; lra.
  - intros x _. lra.
Defined.

(** *** Constant and affine integrands *)

Lemma sum_mul_elem_const (c : R) (pto peso : list R) :
  length pto = length peso ->
  sum_list (mul_elem peso (map (fun _ => c) pto)) = c * sum_list peso.
Proof.
  revert peso.
  induction pto as [|x pto IH]; intros [|w peso] H; simpl in H;
    try discriminate; cbn [map mul_elem].
  - rewrite sum_list_nil. ring.
  - rewrite !sum_list_cons, IH by lia. ring.
Qed.

(** X9: on a rule whose weights add up to 2, scaled to the bounds [a] and
    [b], a constant integrand gives the constant times [b - a]: for a
    callable that returns the bare number (the [lambda x: 2] of the
    docstring), whatever the nodes, and for the constant applied node by
    node on index-aligned arrays. *)
Theorem eva_int_constante_intervalo (a b c : R) (pto peso : list R) :
  sum_list peso = 2 ->
  eva_int (fst (gaussxwab a b pto peso)) (snd (gaussxwab a b pto peso))
    (fun _ => Escalar c) = Ok (c * (b - a)) /\
  (length pto = length peso ->
   eva_int (fst (gaussxwab a b pto peso)) (snd (gaussxwab a b pto peso))
     (vectorizar (fun _ => c)) = Ok (c * (b - a))).
Proof.
  intro Hsum. split.
  - unfold eva_int, gaussxwab. cbn [fst snd mul bind sum].
    rewrite sum_list_scale_r.
    change (fun w : R => 0.5 * (b - a) * w) with (Rmult (0.5 * (b - a))).
    rewrite sum_list_scale, Hsum.
    f_equal. lra.
  - intro Hlen.
    pose proof (gaussxwab_length a b pto peso) as [Hx Hw].
    rewrite eva_int_vectorizar by congruence.
    rewrite sum_mul_elem_const by congruence.
    unfold gaussxwab. cbn [snd].
    change (fun w : R => 0.5 * (b - a) * w) with (Rmult (0.5 * (b - a))).
    rewrite sum_list_scale, Hsum.
    f_equal. lra.
Qed.

Lemma eva_int_constante_intervalo_witness :
  eva_int (fst (gaussxwab 0 1 [-0.5; 0.5] [1; 1]))
    (snd (gaussxwab 0 1 [-0.5; 0.5] [1; 1]))
    (fun _ => Escalar 2) = Ok (2 * (1 - 0)).
Proof.
  assert (Hsum : sum_list [1; 1] = 2)
    by (rewrite !sum_list_cons, sum_list_nil; lra).
  exact (proj1 (eva_int_constante_intervalo 0 1 2 [-0.5; 0.5] [1; 1] Hsum)).
Defined.

(** X10: on a rule of index-aligned arrays whose weights add up to 2 and
    whose first moment is 0, scaled to the bounds [a] and [b], the
    integrand [p * x + q] gives its exact integral,
    [p * (b^2 - a^2) / 2 + q * (b - a)]. *)
Theorem eva_int_afin (a b p q : R) (pto peso : list R) :
  length pto = length peso ->
  sum_list peso = 2 ->
  sum_list (mul_elem peso pto) = 0 ->
  eva_int (fst (gaussxwab a b pto peso)) (snd (gaussxwab a b pto peso))
    (vectorizar (fun x => p * x + q))
  = Ok (p * (b ^ 2 - a ^ 2) / 2 + q * (b - a)).
Proof.
  intros Hlen Hsum Hmom.
  pose proof (gaussxwab_length a b pto peso) as [Hx Hw].
  rewrite eva_int_vectorizar by congruence.
  unfold gaussxwab. cbn [fst snd].
  rewrite map_map.
  change (fun w : R => 0.5 * (b - a) * w) with (Rmult (0.5 * (b - a))).
  rewrite mul_elem_scale, sum_list_scale.
  rewrite (map_ext
             (fun x => p * (0.5 * (b - a) * x + 0.5 * (b + a)) + q)
             (fun x => p * (0.5 * (b - a)) * (fun t => t) x
                       + (fun _ => p * (0.5 * (b + a)) + q) x))
    by (intro x; ring).
  rewrite sum_mul_elem_lineal, map_id, Hmom.
  rewrite sum_mul_elem_const by exact Hlen.
  rewrite Hsum. apply f_equal. lra.
Qed.

Lemma eva_int_afin_witness :
  eva_int (fst (gaussxwab 1 3 [-0.5; 0.5] [1; 1]))
    (snd (gaussxwab 1 3 [-0.5; 0.5] [1; 1]))
    (vectorizar (fun x => 2 * x + 5))
  = Ok (2 * (3 ^ 2 - 1 ^ 2) / 2 + 5 * (3 - 1)).
Proof.
  apply (eva_int_afin 1 3 2 5 [-0.5; 0.5] [1; 1]).
  - reflexivity.
  - rewrite !sum_list_cons, sum_list_nil. lra.
  - cbn [mul_elem]. rewrite !sum_list_cons, sum_list_nil. lra.
Defined.

(** *** The bounds of [gaussxwab] *)

(** X11: scaling to the reference interval itself, with the bounds -1
    and 1, returns the rule unchanged. *)
Theorem gaussxwab_referencia (pto peso : list R) :
  gaussxwab (-1) 1 pto peso = (pto, peso).
Proof.
  unfold gaussxwab. f_equal.
  - rewrite <- (map_id pto) at 2.
    apply map_ext. intro x. lra.
  - rewrite <- (map_id peso) at 2.
    apply map_ext. intro w. lra.
Qed.

(** X12: exchanging the two bounds changes the sign of every weight and
    reflects the reference nodes; the value of [eva_int] on the rule with
    the bounds exchanged is the opposite of its value on the rule with
    the reference nodes reflected. *)
Theorem gaussxwab_limites_invertidos (a b : R) (pto peso : list R)
  (f : R -> R) :
  gaussxwab b a pto peso
  = (fst (gaussxwab a b (map Ropp pto) peso),
     map Ropp (snd (gaussxwab a b pto peso))) /\
  eva_int (fst (gaussxwab b a pto peso)) (snd (gaussxwab b a pto peso))
    (vectorizar f)
  = escalar (-1)
      (eva_int (fst (gaussxwab a b (map Ropp pto) peso))
         (snd (gaussxwab a b (map Ropp pto) peso)) (vectorizar f)).
Proof.
  assert (Hnodes :
    map (fun x => 0.5 * (a - b) * x + 0.5 * (a + b)) pto
    = map (fun x => 0.5 * (b - a) * x + 0.5 * (b + a)) (map Ropp pto)).
  { rewrite map_map. apply map_ext. intro x. lra. }
  assert (Hweights :
    map (fun w => 0.5 * (a - b) * w) peso
    = map (Rmult (-1)) (map (fun w => 0.5 * (b - a) * w) peso)).
  { rewrite map_map. apply map_ext. intro w. lra. }
  split.
  - unfold gaussxwab. cbn [fst snd].
    rewrite Hnodes. f_equal.
    rewrite map_map. apply map_ext. intro w. lra.
  - unfold gaussxwab, eva_int, vectorizar, escalar.
    cbn [fst snd mul].
    rewrite Hnodes, Hweights, mul_vec_scale.
    destruct (mul_vec (map (fun w => 0.5 * (b - a) * w) peso)
                (map f (map (fun x => 0.5 * (b - a) * x + 0.5 * (b + a))
                          (map Ropp pto)))) as [w|e];
      cbn [bind sum].
    + rewrite sum_list_scale. reflexivity.
    + reflexivity.
Qed.

Lemma sum_list_ceros (v : list R) :
  Forall (fun w => w = 0) v -> sum_list v = 0.
Proof.
  induction 1 as [|w v Hw _ IH].
  - apply sum_list_nil.
  - rewrite sum_list_cons, Hw, IH. ring.
Qed.

(** X13: with equal bounds every node is the bound, every weight is 0,
    and [eva_int] on index-aligned arrays gives 0. *)
Theorem gaussxwab_intervalo_degenerado (a : R) (pto peso : list R)
  (f : R -> R) :
  length pto = length peso ->
  Forall (fun x => x = a) (fst (gaussxwab a a pto peso)) /\
  Forall (fun w => w = 0) (snd (gaussxwab a a pto peso)) /\
  eva_int (fst (gaussxwab a a pto peso)) (snd (gaussxwab a a pto peso))
    (vectorizar f) = Ok 0.
Proof.
  intro Hlen.
  pose proof (gaussxwab_length a a pto peso) as [Hx Hw].
  assert (Hnodes : Forall (fun x => x = a) (fst (gaussxwab a a pto peso))).
  { unfold gaussxwab. cbn [fst].
    apply Forall_forall. intros y Hy.
    apply in_map_iff in Hy. destruct Hy as (x & Hxy & _). lra. }
  assert (Hweights : Forall (fun w => w = 0) (snd (gaussxwab a a pto peso))).
  { unfold gaussxwab. cbn [snd].
    apply Forall_forall. intros y Hy.
    apply in_map_iff in Hy. destruct Hy as (w & Hwy & _). lra. }
  split; [exact Hnodes|]. split; [exact Hweights|].
  rewrite eva_int_vectorizar by congruence.
  f_equal. apply sum_list_ceros.
  revert Hweights.
  generalize (map f (fst (gaussxwab a a pto peso))) as v.
  generalize (snd (gaussxwab a a pto peso)) as u.
  intros u v Hu. revert v.
  induction Hu as [|w u Hw0 _ IH]; intros [|y v]; cbn [mul_elem];
    constructor.
  - rewrite Hw0. ring.
  - apply IH.
Qed.

Lemma gaussxwab_intervalo_degenerado_witness :
  eva_int (fst (gaussxwab 2 2 [-0.5; 0.5] [1; 1]))
    (snd (gaussxwab 2 2 [-0.5; 0.5] [1; 1]))
    (vectorizar (fun x => x * x)) = Ok 0.
Proof.
  exact (proj2 (proj2
    (gaussxwab_intervalo_degenerado 2 [-0.5; 0.5] [1; 1]
       (fun x => x * x) eq_refl))).
Defined.




(** *** What [main] records *)

Lemma nth_map_seq (A : Type) (g : nat -> A) (k i : nat) (d : A) :
  (i < k)%nat -> nth i (map g (seq 1 k)) d = g (S i).
Proof.
  intro Hi.
  rewrite (nth_indep _ d (g O)) by (rewrite length_map, length_seq; exact Hi).
  rewrite map_nth, seq_nth by exact Hi.
  reflexivity.
Qed.

Lemma analytic_positivo : 0 < analytic.
Proof. pose proof analytic_entre. lra. Qed.

(** The error of line 193 for the reference value of [main]. *)
Lemma error_relativo_analytic (a : R) :
  error_relativo a analytic = Finito (fst (politica_error a analytic)) /\
  fst (politica_error a analytic) = Rabs (a - analytic) / analytic /\
  0 <= fst (politica_error a analytic).
Proof.
  pose proof analytic_positivo as Hpos.
  unfold error_relativo, politica_error.
  rewrite div_no_cero by lra.
  destruct (Req_dec_T analytic 0) as [E|E]; [lra|]. cbn [fst].
  rewrite (Rabs_right analytic) by lra.
  repeat split.
  apply Rmult_le_pos; [apply Rabs_pos|].
  left. apply Rinv_0_lt_compat. exact Hpos.
Qed.

Section Main_propiedades.

Variable leggauss : nat -> resultado (list R * list R).

(** How a run of [main] that leaves the loop by a [break] ended. *)
Lemma main_desenlace (s : estado) :
  main leggauss = Some (Ok s) ->
  exists k,
    (1 <= k <= 50)%nat /\
    registros leggauss k s /\
    (forall j, (1 <= j < k)%nat -> no_pasa leggauss j) /\
    ((pasa leggauss k /\ N s = k) \/
     (no_pasa leggauss k /\ k = 50%nat /\ N s = 51%nat)).
Proof.
  intro Hmain.
  destruct (bucle_desde leggauss 49 0 inicial)
    as (d & r & Hd & _ & _ & Hfuel & Hno & Hdes).
  - reflexivity.
  - reflexivity.
  - repeat split. intros j H. discriminate H.
  - intros j Hj. lia.
  - unfold main in Hmain. rewrite Hmain in Hfuel.
    injection Hfuel as <-.
    cbn [desenlace] in Hdes. destruct Hdes as [Hreg Hend].
    exists (1 + d)%nat.
    split; [lia|]. split; [exact Hreg|].
    split; [intros j Hj; apply Hno; lia | exact Hend].
Qed.

(** X15: when [main] leaves its loop, the three lists have one length,
    entry [i] of [N_valores] is the order [i + 1], and entry [i] of
    [errores] is the relative error [|approx - analytic| / |analytic|]
    of entry [i] of [integral_valores], a finite number that is not
    negative. *)
Theorem main_errores (s : estado) :
  main leggauss = Some (Ok s) ->
  length (N_valores s) = length (errores s) /\
  length (integral_valores s) = length (errores s) /\
  forall i, (i < length (errores s))%nat ->
    nth i (N_valores s) O = S i /\
    nth i (errores s) NaN
    = Finito (fst (politica_error (nth i (integral_valores s) 0) analytic)) /\
    0 <= fst (politica_error (nth i (integral_valores s) 0) analytic).
Proof.
  intro Hmain.
  destruct (main_desenlace s Hmain) as (k & Hk & (Hn & Hi & He & _) & _).
  rewrite Hn, Hi, He, !length_map, !length_seq.
  split; [reflexivity|]. split; [reflexivity|].
  intros i Hlt.
  rewrite !nth_map_seq by exact Hlt.
  rewrite seq_nth by exact Hlt.
  destruct (error_relativo_analytic (valor leggauss (S i)))
    as (Herr & _ & Hpos).
  repeat split; assumption.
Qed.

(** X16: when [main] leaves its loop with [N] at most 50, [N] is the
    number of trials made, [approx] is the last approximation recorded,
    and it differs from the reference value by less than [tol] times the
    reference value, hence by less than 3.2e-8. *)
Theorem main_exito (s : estado) :
  main leggauss = Some (Ok s) ->
  (N s <= 50)%nat ->
  exists a,
    approx s = Some a /\
    last (integral_valores s) 0 = a /\
    length (N_valores s) = N s /\
    Rabs (a - analytic) < tol * analytic /\
    Rabs (a - analytic) < 3.2e-8.
Proof.
  intros Hmain HN.
  destruct (main_desenlace s Hmain)
    as (k & Hk & (Hn & Hi & He & Ha) & _ & [[Hpasa Hfin] | (_ & _ & H51)]);
    [|lia].
  destruct Hpasa as (a & Hens & Hlt).
  pose proof (valor_ok leggauss k a Hens) as Hv.
  exists a.
  destruct k as [|j]; [lia|].
  split; [rewrite (Ha j eq_refl), Hv; reflexivity|].
  split.
  { rewrite Hi, seq_S, map_app. cbn [map Nat.add].
    rewrite last_last. exact Hv. }
  split; [rewrite Hn, length_seq; symmetry; exact Hfin|].
  destruct (error_relativo_analytic a) as (Herr & Hval & _).
  rewrite Herr, Hval in Hlt. cbn [ltb] in Hlt.
  destruct (Rlt_dec (Rabs (a - analytic) / analytic) tol) as [L|L];
    [|discriminate].
  pose proof analytic_entre as [Hlo Hhi].
  assert (Hrel : Rabs (a - analytic) < tol * analytic).
  { apply (Rmult_lt_compat_r analytic) in L; [|lra].
    unfold Rdiv in L. rewrite Rmult_assoc, Rinv_l, Rmult_1_r in L by lra.
    exact L. }
  split; [exact Hrel|].
  unfold tol in Hrel. lra.
Qed.

(** X17: when [main] has made at least five trials, the approximation
    and the error [test.py] prints are entry 4 of [integral_valores] and
    of [errores], and its exact value is the reference value. *)
Theorem test_py_coincide (s : estado) :
  main leggauss = Some (Ok s) ->
  (5 <= length (N_valores s))%nat ->
  test_py leggauss
  = Ok (nth 4 (integral_valores s) 0, analytic, nth 4 (errores s) NaN).
Proof.
  intros Hmain Hlen.
  destruct (main_desenlace s Hmain)
    as (k & Hk & (Hn & Hi & He & _) & Hno & Hend).
  rewrite Hn, length_seq in Hlen.
  assert (Hens : exists a, ensayo leggauss 5 = Ok a).
  { destruct (Nat.eq_dec k 5) as [E|E].
    - subst k.
      destruct Hend as [[(a & Ha & _) _] | [(a & Ha & _) _]];
        exists a; exact Ha.
    - destruct (Hno 5%nat) as (a & Ha & _); [lia|].
      exists a. exact Ha. }
  destruct Hens as (a & Ha).
  pose proof (valor_ok leggauss 5 a Ha) as Hv.
  rewrite Hi, He, !nth_map_seq by lia.
  rewrite Hv.
  unfold ensayo in Ha. unfold test_py.
  destruct (gaussxw leggauss 5) as [xw|e]; cbn [bind] in *;
    [|discriminate].
  destruct (gaussxwab 1 3 (fst xw) (snd xw)) as [pto_esc peso_esc].
  rewrite Ha. reflexivity.
Qed.

End Main_propiedades.

(** A generator of empty rules: every trial gives 0, no error is below
    the tolerance, and [main] stops at the cap with 50 records. *)
Lemma main_reglas_vacias :
  exists s,
    main (fun _ => Ok ([], [])) = Some (Ok s) /\
    length (N_valores s) = 50%nat /\ N s = 51%nat.
Proof.
  set (L := fun _ : nat => @Ok (list R * list R) ([], [])).
  destruct (main_sin_excepcion L) as [s Hs].
  { intros n _. exists [], []. split; reflexivity. }
  exists s. split; [exact Hs|].
  destruct (main_desenlace L s Hs)
    as (k & Hk & (Hn & _) & _ & [[Hpasa _] | (_ & Hk50 & H51)]).
  - exfalso.
    destruct Hpasa as (a & Ha & Hlt).
    assert (Ha0 : a = 0).
    { assert (H0 : ensayo L k = Ok (sum_list [])) by reflexivity.
      rewrite H0 in Ha. injection Ha as <-. apply sum_list_nil. }
    subst a.
    destruct (error_relativo_analytic 0) as (Herr & Hval & _).
    rewrite Herr, Hval in Hlt. cbn [ltb] in Hlt.
    destruct (Rlt_dec (Rabs (0 - analytic) / analytic) tol) as [Lt|Lt];
      [|discriminate].
    pose proof analytic_positivo as Hpos.
    replace (0 - analytic) with (- analytic) in Lt by ring.
    rewrite Rabs_Ropp, (Rabs_right analytic) in Lt by lra.
    unfold Rdiv in Lt. rewrite Rinv_r in Lt by lra.
    unfold tol in Lt. lra.
  - subst k. rewrite Hn, length_seq. split; [reflexivity | exact H51].
Qed.

Lemma main_errores_witness :
  exists s,
    main (fun _ => Ok ([], [])) = Some (Ok s) /\
    length (N_valores s) = length (errores s).
Proof.
  destruct main_reglas_vacias as (s & Hs & _).
  exists s. split; [exact Hs|].
  exact (proj1 (main_errores (fun _ => Ok ([], [])) s Hs)).
Defined.

Lemma test_py_coincide_witness :
  exists s,
    main (fun _ => Ok ([], [])) = Some (Ok s) /\
    test_py (fun _ => Ok ([], []))
    = Ok (nth 4 (integral_valores s) 0, analytic, nth 4 (errores s) NaN).
Proof.
  destruct main_reglas_vacias as (s & Hs & Hlen & _).
  exists s. split; [exact Hs|].
  apply (test_py_coincide (fun _ => Ok ([], [])) s Hs).
  rewrite Hlen. lia.
Defined.

(** A generator whose one-point rule gives the reference value itself:
    [main] stops after the first trial. *)
Lemma main_regla_exacta :
  exists s,
    main (fun _ => Ok ([0], [analytic / func_arg_int_1 2])) = Some (Ok s) /\
    N s = 1%nat.
Proof.
  set (L := fun _ : nat =>
              @Ok (list R * list R) ([0], [analytic / func_arg_int_1 2])).
  assert (Hf2 : 0 < func_arg_int_1 2).
  { unfold func_arg_int_1. pose proof (SIN_bound (2 * 2)) as [_ Hs]. nra. }
  assert (Hens : ensayo L 1 = Ok analytic).
  { unfold ensayo, gaussxw, L, gaussxwab, eva_int, func_arg_int, mul, mul_vec.
    cbn [bind fst snd map length Nat.eqb mul_elem sum].
    unfold sum_list. cbn [fold_left].
    replace (0.5 * (3 - 1) * 0 + 0.5 * (3 + 1)) with 2 by lra.
    replace (0.5 * (3 - 1)) with 1 by lra.
    apply f_equal. field. lra. }
  assert (Hlt : ltb (error_relativo analytic analytic) tol = true).
  { destruct (error_relativo_analytic analytic) as (Herr & Hval & _).
    rewrite Herr, Hval. cbn [ltb].
    replace (analytic - analytic) with 0 by ring.
    rewrite Rabs_R0.
    destruct (Rlt_dec (0 / analytic) tol) as [Lt|Lt]; [reflexivity|].
    exfalso. apply Lt. unfold Rdiv, tol. rewrite Rmult_0_l. lra. }
  eexists. split.
  - unfold main. cbn [bucle].
    rewrite (iteracion_pasa L inicial analytic Hens Hlt).
    reflexivity.
  - reflexivity.
Qed.

Lemma main_exito_witness :
  exists s a,
    main (fun _ => Ok ([0], [analytic / func_arg_int_1 2])) = Some (Ok s) /\
    approx s = Some a /\
    Rabs (a - analytic) < 3.2e-8.
Proof.
  destruct main_regla_exacta as (s & Hs & HN).
  destruct (main_exito _ s Hs) as (a & Ha & _ & _ & _ & Hprec).
  - rewrite HN. lia.
  - exists s, a. repeat split; assumption.
Defined.

(** *** Exceptions in [main] *)

Section Main_excepciones.

Variable leggauss : nat -> resultado (list R * list R).

Lemma pasa_no_pasa (k : nat) :
  pasa leggauss k -> no_pasa leggauss k -> False.
Proof.
  intros (a & Ha & Ht) (a' & Ha' & Hf).
  rewrite Ha in Ha'. injection Ha' as <-.
  rewrite Ht in Hf. discriminate.
Qed.

Lemma no_pasa_no_lanza (k : nat) (e : excepcion) :
  no_pasa leggauss k -> ensayo leggauss k = Error e -> False.
Proof.
  intros (a & Ha & _) He. rewrite Ha in He. discriminate.
Qed.

Lemma pasa_no_lanza (k : nat) (e : excepcion) :
  pasa leggauss k -> ensayo leggauss k = Error e -> False.
Proof.
  intros (a & Ha & _) He. rewrite Ha in He. discriminate.
Qed.

(** X18: [main] ends with an exception exactly when a trial of an order
    up to 50 raises and no trial before it was below the tolerance; the
    exception is the one of that trial, and nothing of the run is
    returned. *)
Theorem main_excepcion (e : excepcion) :
  main leggauss = Some (Error e) <->
  exists k,
    (1 <= k <= 50)%nat /\
    ensayo leggauss k = Error e /\
    (forall j, (1 <= j < k)%nat -> no_pasa leggauss j).
Proof.
  destruct (bucle_desde leggauss 49 0 inicial)
    as (d & r & Hd & _ & _ & Hfuel & Hno & Hdes).
  { reflexivity. }
  { reflexivity. }
  { repeat split. intros j H. discriminate H. }
  { intros j Hj. lia. }
  fold (main leggauss) in Hfuel.
  split.
  - intro Hmain. rewrite Hmain in Hfuel. injection Hfuel as <-.
    cbn [desenlace] in Hdes.
    exists (1 + d)%nat.
    split; [lia|]. split; [exact Hdes|].
    intros j Hj. apply Hno. lia.
  - intros (k & Hk & He & Hprev).
    rewrite Hfuel. do 2 f_equal.
    destruct (Nat.lt_trichotomy (1 + d) k) as [Hlt | [Heq | Hgt]].
    + exfalso.
      assert (Hnp : no_pasa leggauss (1 + d)) by (apply Hprev; lia).
      destruct r as [s|e']; cbn [desenlace] in Hdes.
      * destruct Hdes as [_ [[Hp _] | (_ & H50 & _)]].
        -- exact (pasa_no_pasa _ Hp Hnp).
        -- lia.
      * exact (no_pasa_no_lanza _ _ Hnp Hdes).
    + rewrite Heq in Hdes.
      destruct r as [s|e']; cbn [desenlace] in Hdes.
      * exfalso.
        destruct Hdes as [_ [[Hp _] | (Hnp & _)]].
        -- exact (pasa_no_lanza _ _ Hp He).
        -- exact (no_pasa_no_lanza _ _ Hnp He).
      * rewrite He in Hdes. injection Hdes as <-. reflexivity.
    + exfalso.
      apply (no_pasa_no_lanza k e); [|exact He].
      apply Hno. lia.
Qed.

End Main_excepciones.
